(** * live-js: the LiveClient of src/index.ts

    A shallow embedding of the client-side RPC layer built on a socket.io
    socket, together with the properties of its request/response
    correlation and of its inbound dispatch.

    The socket is the transport's object.  What the client does to it
    ([emit], [on], [disconnect]) is recorded as a list of events; what the
    transport does to the client (an acknowledgement arrives, an inbound
    "rpc" event arrives) is a separate operation that runs the closure the
    client handed over. *)

From stdpp Require Import base list strings pretty.
From Stdlib Require Import NArith Lia Sorted Ascii.

Local Open Scope string_scope.
Local Open Scope N_scope.
Local Open Scope list_scope.

Set Warnings "-register-all".

(** ** JavaScript values *)

(** The [any] of the source.  Numbers are the integer-valued ones, which is
    all the source produces ([500], the call counter). *)
Inductive JSValue : Type :=
| VUndefined
| VNull
| VBool (b : bool)
| VNum (n : Z)
| VStr (s : string)
| VObj (fields : list (string * JSValue))
| VArr (elems : list JSValue).

(** ToBoolean, as used by [if (response.error)]. *)
Definition truthy (v : JSValue) : bool :=
  match v with
  | VUndefined | VNull => false
  | VBool b => b
  | VNum n => negb (Z.eqb n 0)
  | VStr s => negb (String.eqb s EmptyString)
  | VObj _ | VArr _ => true
  end.

(** [o.f] on an optional field: an absent property reads as [undefined]. *)
Definition prop (o : option JSValue) : JSValue := default VUndefined o.

(** [a[0]]: reading past the end of an array gives [undefined]. *)
Definition index0 (a : list JSValue) : JSValue := default VUndefined (a !! 0%nat).

(** ** Wire shapes *)

(** [export const RPCEvent = "rpc"] *)
Definition RPCEvent : string := "rpc".

Module RPCRequest.
Record t : Type := { id : string; method : string; params : list JSValue }.
End RPCRequest.

Module RPCResponse.
Record t : Type :=
  { id : JSValue; result : option JSValue; error : option JSValue }.
End RPCResponse.

Module RPCError.
Record t : Type := { code : Z; message : string; data : option JSValue }.

(** The object an [RPCError] is on the wire. *)
Definition to_value (e : t) : JSValue :=
  VObj ([("code", VNum (code e)); ("message", VStr (message e))]
        ++ match data e with Some d => [("data", d)] | None => [] end).
End RPCError.

(** ** Promises *)

(** A promise is a handle into the store of promise states. *)
Definition Promise : Type := nat.

Inductive PromiseState : Type :=
| Pending
| Fulfilled (v : JSValue)
| Rejected (e : JSValue).

(** ** What the client hands to the socket *)

(** The acknowledgement function of [request]: it closes over the [resolve]
    and [reject] of the promise it was created in. *)
Inductive Ack : Type :=
| AckSettle (p : Promise).

(** A handler passed to [onRequest]: [run x] is the eventual state of the
    promise that [handler(x)] returns; [tag] names the function in the
    event log. *)
Record Handler : Type := { tag : nat; run : JSValue → PromiseState }.

Inductive Listener : Type :=
| RequestListener (method : string) (handler : Handler)
| UserCallback (tag : nat).

Inductive Payload : Type :=
| PRequest (r : RPCRequest.t)
| PValue (v : JSValue).

(** ** Observable effects *)

Inductive Event : Type :=
| Emit (event : string) (payload : Payload) (ack : option Ack)
| Disconnect
| HandlerCall (tag : nat) (arg : JSValue)
| CallbackCall (tag : nat) (arg : Payload)
| AckCall (cb : nat) (response : RPCResponse.t)
| Resolve (p : Promise) (v : JSValue)
| Reject (p : Promise) (e : JSValue).

(** ** State *)

Module Socket.
Record t : Type :=
  { id : string; connected : bool; listeners : list (string * Listener) }.
End Socket.

Module LiveClient.
(** [private id = 0] and [private socket]. *)
Record t : Type := { id : N; socket : Socket.t }.
End LiveClient.

Record World : Type :=
  { client : LiveClient.t; promises : list PromiseState }.

Definition fresh (sid : string) : World :=
  {| client := {| LiveClient.id := 0;
                  LiveClient.socket := {| Socket.id := sid;
                                          Socket.connected := true;
                                          Socket.listeners := [] |} |};
     promises := [] |}.

(** ** The effect monad: state passing plus an event log *)

Definition M (A : Type) : Type := World → A * World * list Event.

Definition ret {A} (a : A) : M A := λ w, (a, w, []).

Definition bind {A B} (c : M A) (k : A → M B) : M B :=
  λ w, let '(a, w1, e1) := c w in
       let '(b, w2, e2) := k a w1 in
       (b, w2, e1 ++ e2).

#[global] Instance M_ret : MRet M := @ret.
#[global] Instance M_bind : MBind M := λ A B k c, bind c k.

Definition tell (e : Event) : M unit := λ w, (tt, w, [e]).
Definition get : M World := λ w, (w, w, []).
Definition put (w : World) : M unit := λ _, (tt, w, []).

Definition value {A} (r : A * World * list Event) : A := r.1.1.
Definition world {A} (r : A * World * list Event) : World := r.1.2.
Definition events {A} (r : A * World * list Event) : list Event := r.2.

Fixpoint forM {A B} (f : A → M B) (l : list A) : M (list B) :=
  match l with
  | [] => ret []
  | x :: l' => y ← f x; ys ← forM f l'; ret (y :: ys)
  end.

Fixpoint forM_ {A} (f : A → M unit) (l : list A) : M unit :=
  match l with
  | [] => ret tt
  | x :: l' => f x;; forM_ f l'
  end.

(** ** Numbers *)

(** 2^53: the doubles below it are exactly the integers below it. *)
Definition MAX_SAFE : N := 9007199254740992.

(** [n++] on the call counter.  The counter is a JavaScript number (an IEEE
    double) that starts at 0 and changes nowhere else, so it stays within
    0..2^53.  Below 2^53 the sum [n + 1] is exact; at 2^53 it is half-way
    between the doubles 2^53 and 2^53 + 2 and rounds to the even one, 2^53. *)
Definition js_incr (n : N) : N := if n <? MAX_SAFE then n + 1 else n.

(** [n.toString()] for an integer below 10^21: its decimal digits. *)
Definition toString (n : N) : string := pretty n.

(** ** Primitive effects on the store and the socket *)

Definition set_id (n : N) (w : World) : World :=
  {| client := {| LiveClient.id := n;
                  LiveClient.socket := LiveClient.socket (client w) |};
     promises := promises w |}.

Definition set_socket (s : Socket.t) (w : World) : World :=
  {| client := {| LiveClient.id := LiveClient.id (client w);
                  LiveClient.socket := s |};
     promises := promises w |}.

Definition set_promises (ps : list PromiseState) (w : World) : World :=
  {| client := client w; promises := ps |}.

(** [new Promise(...)]: a new pending promise. *)
Definition new_promise : M Promise :=
  λ w, (length (promises w), set_promises (promises w ++ [Pending]) w, []).

(** The first settlement wins; later ones leave the promise as it is. *)
Definition settle (p : Promise) (s : PromiseState) (w : World) : World :=
  match promises w !! p with
  | Some Pending => set_promises (<[p := s]> (promises w)) w
  | _ => w
  end.

Definition resolve (p : Promise) (v : JSValue) : M unit :=
  λ w, (tt, settle p (Fulfilled v) w, [Resolve p v]).

Definition reject (p : Promise) (e : JSValue) : M unit :=
  λ w, (tt, settle p (Rejected e) w, [Reject p e]).

(** [socket.emit(event, payload, ack)] *)
Definition socket_emit (event : string) (payload : Payload) (ack : option Ack)
  : M unit := tell (Emit event payload ack).

(** [socket.on(event, listener)] *)
Definition socket_on (event : string) (l : Listener) : M unit :=
  λ w, let s := LiveClient.socket (client w) in
       (tt,
        set_socket {| Socket.id := Socket.id s;
                      Socket.connected := Socket.connected s;
                      Socket.listeners := Socket.listeners s ++ [(event, l)] |} w,
        []).

(** ** LiveClient *)

(** [get socketID()] *)
Definition socketID : M string :=
  λ w, (Socket.id (LiveClient.socket (client w)), w, []).

(** The function passed as acknowledgement in [request]. *)
Definition ack_body (p : Promise) (response : RPCResponse.t) : M unit :=
  if truthy (prop (RPCResponse.error response))
  then reject p (prop (RPCResponse.error response))
  else resolve p (prop (RPCResponse.result response)).

(** [request(address, method, param)] *)
Definition request (address method : string) (param : JSValue) : M Promise :=
  w ← get;
  put (set_id (js_incr (LiveClient.id (client w))) w);;
  p ← new_promise;
  w ← get;
  socket_emit RPCEvent
    (PRequest {| RPCRequest.id := toString (LiveClient.id (client w));
                 RPCRequest.method := address +:+ "." +:+ method;
                 RPCRequest.params := [param] |})
    (Some (AckSettle p));;
  ret p.

(** [authenticate(token)] *)
Definition authenticate (token : string) : M Promise :=
  request EmptyString "Live.Authenticate" (VStr token).

(** [disconnect()] *)
Definition disconnect : M unit :=
  λ w, let s := LiveClient.socket (client w) in
       (tt,
        set_socket {| Socket.id := Socket.id s;
                      Socket.connected := false;
                      Socket.listeners := Socket.listeners s |} w,
        [Disconnect]).

(** [notify(method, param)] *)
Definition notify (method : string) (param : JSValue) : M unit :=
  socket_emit method (PValue param) None.

(** [on(event, callback)] *)
Definition on (event : string) (callback : nat) : M unit :=
  socket_on event (UserCallback callback).

(** [onNotification(method, callback)] *)
Definition onNotification (method : string) (callback : nat) : M unit :=
  socket_on method (UserCallback callback).

(** The transport's acknowledgement function for inbound packet [cb], as
    the listener sees it: calling it is an event; it returns [undefined]. *)
Definition callback (cb : nat) (response : RPCResponse.t) : M JSValue :=
  tell (AckCall cb response);; ret VUndefined.

(** [p.catch(f)]: [f] runs on the reason of a rejected [p] and its return
    value fulfils the new promise; another [p] passes through. *)
Definition promise_catch (p : PromiseState) (f : JSValue → M JSValue)
  : M PromiseState :=
  match p with
  | Rejected e => v ← f e; ret (Fulfilled v)
  | _ => ret p
  end.

(** [p.then(g)]: [g] runs on the value of a fulfilled [p]. *)
Definition promise_then (p : PromiseState) (g : JSValue → M JSValue)
  : M PromiseState :=
  match p with
  | Fulfilled v => r ← g v; ret (Fulfilled r)
  | _ => ret p
  end.

(** The call [handler(x)]. *)
Definition call_handler (h : Handler) (x : JSValue) : M PromiseState :=
  tell (HandlerCall (tag h) x);; ret (run h x).

(** The listener that [onRequest(method, handler)] subscribes. *)
Definition onRequest_listener (method : string) (handler : Handler)
    (request : RPCRequest.t) (cb : nat) : M unit :=
  if String.eqb (RPCRequest.method request) method then
    p ← call_handler handler (index0 (RPCRequest.params request));
    q ← promise_catch p (λ err,
           callback cb {| RPCResponse.id := VStr (RPCRequest.id request);
                          RPCResponse.result := None;
                          RPCResponse.error :=
                            Some (VObj [("code", VNum 500); ("message", err)]) |});
    promise_then q (λ result,
           callback cb {| RPCResponse.id := VStr (RPCRequest.id request);
                          RPCResponse.result := Some result;
                          RPCResponse.error := None |});;
    ret tt
  else ret tt.

(** [onRequest(method, handler)] *)
Definition onRequest (method : string) (handler : Handler) : M unit :=
  socket_on RPCEvent (RequestListener method handler).

(** ** PipelineLiveClient *)

(** [getRegisteredAgents()] *)
Definition getRegisteredAgents : M Promise :=
  request "Pipeline" "GetRegisteredAgents" (VObj []).

(** ** The transport's side *)

(** The acknowledgement of an emitted request arrives. *)
Definition ack_arrives (a : Ack) (response : RPCResponse.t) : M unit :=
  match a with AckSettle p => ack_body p response end.

Definition run_listener (l : Listener) (request : RPCRequest.t) (cb : nat)
  : M unit :=
  match l with
  | RequestListener method handler => onRequest_listener method handler request cb
  | UserCallback t => tell (CallbackCall t (PRequest request))
  end.

(** The listeners subscribed to [event], in subscription order. *)
Definition listeners_of (event : string) (ls : list (string * Listener))
  : list Listener :=
  omap (λ el, if String.eqb el.1 event then Some el.2 else None) ls.

(** An inbound request arrives on the "rpc" channel, with the transport's
    acknowledgement function [cb]: every listener of the channel runs.
    The events of one listener are listed together, listener after
    listener in subscription order; when the promises of different
    handlers settle relative to one another is up to the handlers. *)
Definition rpc_arrives (request : RPCRequest.t) (cb : nat) : M unit :=
  w ← get;
  forM_ (λ l, run_listener l request cb)
        (listeners_of RPCEvent (Socket.listeners (LiveClient.socket (client w)))).

(** ** Runs of the client *)

(** The public surface of [LiveClient] and [PipelineLiveClient]. *)
Inductive Invocation : Type :=
| CallAuthenticate (token : string)
| CallDisconnect
| CallNotify (method : string) (param : JSValue)
| CallRequest (address method : string) (param : JSValue)
| CallOn (event : string) (callback : nat)
| CallOnNotification (method : string) (callback : nat)
| CallOnRequest (method : string) (handler : Handler)
| CallGetRegisteredAgents.

(** One step of a run: the program calls a method, or the transport
    delivers an acknowledgement or an inbound request. *)
Inductive Action : Type :=
| Invoke (i : Invocation)
| AckArrives (a : Ack) (response : RPCResponse.t)
| RpcArrives (request : RPCRequest.t) (cb : nat).

Definition invoke (i : Invocation) : M unit :=
  match i with
  | CallAuthenticate token => authenticate token;; ret tt
  | CallDisconnect => disconnect
  | CallNotify method param => notify method param
  | CallRequest address method param => request address method param;; ret tt
  | CallOn event cb => on event cb
  | CallOnNotification method cb => onNotification method cb
  | CallOnRequest method handler => onRequest method handler
  | CallGetRegisteredAgents => getRegisteredAgents;; ret tt
  end.

Definition act (a : Action) : M unit :=
  match a with
  | Invoke i => invoke i
  | AckArrives k response => ack_arrives k response
  | RpcArrives req cb => rpc_arrives req cb
  end.

Definition run_actions (l : list Action) : M unit := forM_ act l.

(** The actions that go through [request]. *)
Definition is_call (a : Action) : bool :=
  match a with
  | Invoke (CallAuthenticate _ | CallRequest _ _ _ | CallGetRegisteredAgents) => true
  | _ => false
  end.

Definition calls (l : list Action) : nat := length (filter is_call l).

(** The request envelopes among the events: the id of each with the
    acknowledgement function it was emitted with. *)
Definition sent (es : list Event) : list (string * Ack) :=
  omap (λ e, match e with
             | Emit _ (PRequest r) (Some a) => Some (RPCRequest.id r, a)
             | _ => None
             end) es.

Definition issued_ids (es : list Event) : list string := (sent es).*1.

(** [n] calls in a row. *)
Definition flood (n : nat) : list Action :=
  replicate n (Invoke (CallRequest "peerA" "Foo.Bar" VNull)).

(** Several calls made before any response arrives. *)
Definition call_all (cs : list (string * string * JSValue)) : M (list Promise) :=
  forM (λ c, request c.1.1 c.1.2 c.2) cs.

(** Acknowledgements arriving one after the other. *)
Definition deliver (ds : list (Ack * RPCResponse.t)) : M unit :=
  forM_ (λ d, ack_arrives d.1 d.2) ds.

(** What a response carries for the caller: its error if it has one
    (a truthy [error]), its result otherwise. *)
Definition outcome (r : RPCResponse.t) : PromiseState :=
  if truthy (prop (RPCResponse.error r))
  then Rejected (prop (RPCResponse.error r))
  else Fulfilled (prop (RPCResponse.result r)).

Definition settles (p : Promise) (e : Event) : bool :=
  match e with
  | Resolve q _ | Reject q _ => bool_decide (q = p)
  | _ => false
  end.

(** How many times [resolve] or [reject] of promise [p] was called. *)
Definition settlements (p : Promise) (es : list Event) : nat :=
  length (filter (λ e, settles p e = true) es).

(** ** Views of a run *)

(** The request envelopes among the events, each with the acknowledgement
    function it was emitted with. *)
Definition requests_sent (es : list Event) : list (RPCRequest.t * Ack) :=
  omap (λ e, match e with
             | Emit _ (PRequest r) (Some a) => Some (r, a)
             | _ => None
             end) es.

(** The calls of handlers among the events: which handler, on what. *)
Definition handler_calls (es : list Event) : list (nat * JSValue) :=
  omap (λ e, match e with HandlerCall t x => Some (t, x) | _ => None end) es.

(** The responses passed to the acknowledgement function [cb]. *)
Definition acknowledged (cb : nat) (es : list Event) : list RPCResponse.t :=
  omap (λ e, match e with
             | AckCall c r => if decide (c = cb) then Some r else None
             | _ => None
             end) es.

(** The handlers that [onRequest] registered for [method], oldest first. *)
Definition registered (method : string) (w : World) : list Handler :=
  omap (λ l, match l with
             | RequestListener m h => if String.eqb method m then Some h else None
             | UserCallback _ => None
             end)
       (listeners_of RPCEvent (Socket.listeners (LiveClient.socket (client w)))).

(** No "." in the string. *)
Fixpoint dot_free (s : string) : bool :=
  match s with
  | EmptyString => true
  | String c s' => negb (Ascii.eqb c "."%char) && dot_free s'
  end.

(** The reply the caller ends up with when the callee's handler promise
    ends in state [h]. *)
Definition relayed (h : PromiseState) : PromiseState :=
  match h with
  | Pending => Pending
  | Fulfilled v => Fulfilled v
  | Rejected err => Rejected (VObj [("code", VNum 500); ("message", err)])
  end.

(** ** Statements about concurrent calls *)

(** Every call of the batch [cs] made in [w] is acknowledged exactly once:
    the acknowledgement functions that [ds] invokes, in the order of
    arrival, are those of the emitted requests in some order. *)
Definition acknowledged_once (w : World) (cs : list (string * string * JSValue))
    (ds : list (Ack * RPCResponse.t)) : Prop :=
  ds.*1 ≡ₚ (sent (events (call_all cs w))).*2.

(** Every response carries the id of the request whose acknowledgement
    function it is passed to. *)
Definition conformant (w : World) (cs : list (string * string * JSValue))
    (ds : list (Ack * RPCResponse.t)) : Prop :=
  ∀ a r s, (a, r) ∈ ds → (s, a) ∈ sent (events (call_all cs w)) →
           RPCResponse.id r = VStr s.

(** Every call ends settled exactly once, with the result or error of any
    arrived response whose id is the id of the call's request. *)
Definition receives_by_id (w : World) (cs : list (string * string * JSValue))
    (ds : list (Ack * RPCResponse.t)) : Prop :=
  ∀ k p s a r,
    value (call_all cs w) !! k = Some p →
    sent (events (call_all cs w)) !! k = Some (s, a) →
    r ∈ ds.*2 →
    RPCResponse.id r = VStr s →
    promises (world (deliver ds (world (call_all cs w)))) !! p = Some (outcome r)
    ∧ settlements p (events (deliver ds (world (call_all cs w)))) = 1%nat.

(** ** Registrations of a run *)

(** The [onRequest] calls of a run, oldest first. *)
Definition onRequests (l : list Action) : list (string * Handler) :=
  omap (λ a, match a with
             | Invoke (CallOnRequest method handler) => Some (method, handler)
             | _ => None
             end) l.

(** ** The specification's description of a call *)

Module Spec.
(** [call(targetAddress, method, param)] as section 4.1 of the
    specification words it: increment the instance-local counter to
    produce the id, compose the method as targetAddress + "." + method,
    emit the Request envelope on the shared RPC channel with an
    acknowledgement callback that settles the caller's completion. *)
Definition call (targetAddress method : string) (param : JSValue) : M Promise :=
  λ w,
    let id := js_incr (LiveClient.id (client w)) in
    let completion := length (promises w) in
    (completion,
     {| client := {| LiveClient.id := id;
                     LiveClient.socket := LiveClient.socket (client w) |};
        promises := promises w ++ [Pending] |},
     [Emit RPCEvent
        (PRequest {| RPCRequest.id := toString id;
                     RPCRequest.method := targetAddress +:+ "." +:+ method;
                     RPCRequest.params := [param] |})
        (Some (AckSettle completion))]).

(** [authenticate(token)]: the convenience call equivalent to [call] with
    the empty target address, the method [Live.Authenticate] and the
    token as parameter. *)
Definition authenticate (token : string) : M Promise :=
  call EmptyString "Live.Authenticate" (VStr token).
End Spec.

(** * Properties *)

Example toString_0 : toString 0 = "0".
Proof. reflexivity. Qed.

Example toString_42 : toString 42 = "42".
Proof. reflexivity. Qed.

Example toString_max : toString MAX_SAFE = "9007199254740992".
Proof. vm_compute. reflexivity. Qed.

Example MAX_SAFE_pow : MAX_SAFE = 2 ^ 53.
Proof. reflexivity. Qed.

Example js_incr_41 : js_incr 41 = 42.
Proof. reflexivity. Qed.

Example js_incr_max : js_incr MAX_SAFE = MAX_SAFE.
Proof. reflexivity. Qed.

(** ** Outbound requests *)

Lemma request_unfold address method param w :
  request address method param w = Spec.call address method param w.
Proof. reflexivity. Qed.

Lemma request_id address method param w :
  LiveClient.id (client (world (request address method param w)))
  = js_incr (LiveClient.id (client w)).
Proof. reflexivity. Qed.

Lemma request_outstanding address method param w :
  promises (world (request address method param w))
    !! value (request address method param w) = Some Pending.
Proof.
  rewrite request_unfold. unfold Spec.call, world, value. simpl.
  by rewrite lookup_app_r, Nat.sub_diag.
Qed.

(** C4: [request(address, method, param)] emits, on the "rpc" channel, one
    envelope whose method is [address + "." + method] and whose params is
    the one-element array [[param]]. *)
Theorem request_emits_envelope address method param w :
  ∃ envelope ack,
    events (request address method param w)
      = [Emit RPCEvent (PRequest envelope) (Some ack)]
    ∧ RPCRequest.method envelope = address +:+ "." +:+ method
    ∧ RPCRequest.params envelope = [param].
Proof. rewrite request_unfold. by eexists _, _. Qed.

Example request_peerA w :
  ∃ id ack,
    events (request "peerA" "Foo.Bar" (VObj [("x", VNum 1)]) w)
    = [Emit "rpc"
         (PRequest {| RPCRequest.id := id;
                      RPCRequest.method := "peerA.Foo.Bar";
                      RPCRequest.params := [VObj [("x", VNum 1)]] |})
         (Some ack)].
Proof. by eexists _, _. Qed.

(** C10: with the empty address the separator stays: the envelope's method
    is ["." + method], and [authenticate] sends [".Live.Authenticate"]. *)
Theorem request_empty_address_keeps_separator method param token w :
  (∃ id ack,
     events (request EmptyString method param w)
     = [Emit RPCEvent
          (PRequest {| RPCRequest.id := id;
                       RPCRequest.method := "." +:+ method;
                       RPCRequest.params := [param] |})
          (Some ack)])
  ∧ (∃ id ack,
       events (authenticate token w)
       = [Emit RPCEvent
            (PRequest {| RPCRequest.id := id;
                         RPCRequest.method := ".Live.Authenticate";
                         RPCRequest.params := [VStr token] |})
            (Some ack)]).
Proof. split; by eexists _, _. Qed.

(** C8: [notify(method, param)] is one emit on the channel named [method],
    carrying [param] itself with no acknowledgement function; it returns
    normally and leaves the client (counter, promises, socket) as it was. *)
Theorem notify_only_emits method param w :
  notify method param w = (tt, w, [Emit method (PValue param) None]).
Proof. reflexivity. Qed.

Example notify_chat w :
  notify "Chat.Message" (VObj [("text", VStr "hi")]) w
  = (tt, w, [Emit "Chat.Message" (PValue (VObj [("text", VStr "hi")])) None]).
Proof. reflexivity. Qed.

(** C9: [authenticate(token)] is the call with the empty address, the
    method [Live.Authenticate] and the parameter [token]:
    same promise, same resulting client, same envelope on the same channel
    with the same acknowledgement function, hence the same settlement
    whatever response arrives. *)
Theorem authenticate_is_call token w :
  authenticate token w = Spec.authenticate token w
  ∧ authenticate token w = request EmptyString "Live.Authenticate" (VStr token) w
  ∧ ∀ response,
      (p ← authenticate token; ack_arrives (AckSettle p) response) w
      = (p ← Spec.authenticate token; ack_arrives (AckSettle p) response) w.
Proof. by repeat split. Qed.

(** ** Settlement *)

Lemma truthy_error e : truthy (RPCError.to_value e) = true.
Proof. reflexivity. Qed.

Lemma settle_pending p s w :
  promises w !! p = Some Pending →
  promises (settle p s w) !! p = Some s.
Proof.
  intros Hp. unfold settle. rewrite Hp. simpl.
  apply list_lookup_insert_eq. by eapply lookup_lt_Some.
Qed.

(** C5: when the acknowledgement of an outstanding call arrives, a response
    whose [error] is an ErrorInfo rejects the call's promise with that very
    object (code, message and data as received); a response without [error]
    fulfils it with the response's [result]. *)
Theorem ack_settles_by_error p w id result e :
  promises w !! p = Some Pending →
  (let r := ack_arrives (AckSettle p)
              {| RPCResponse.id := id; RPCResponse.result := result;
                 RPCResponse.error := Some (RPCError.to_value e) |} w in
   promises (world r) !! p = Some (Rejected (RPCError.to_value e))
   ∧ events r = [Reject p (RPCError.to_value e)])
  ∧ (let r := ack_arrives (AckSettle p)
                {| RPCResponse.id := id; RPCResponse.result := result;
                   RPCResponse.error := None |} w in
     promises (world r) !! p = Some (Fulfilled (prop result))
     ∧ events r = [Resolve p (prop result)]).
Proof.
  intros Hp. split; simpl; unfold ack_body; simpl; split; try done;
    unfold world; simpl; by apply settle_pending.
Qed.

(** The test on [response.error] is one of truthiness: a response whose
    [error] is present but falsy ([null], [0], the empty string, [false])
    fulfils the promise. *)
Lemma ack_falsy_error_resolves p w id result :
  promises w !! p = Some Pending →
  promises (world (ack_arrives (AckSettle p)
                     {| RPCResponse.id := id; RPCResponse.result := result;
                        RPCResponse.error := Some VNull |} w)) !! p
  = Some (Fulfilled (prop result)).
Proof. intros Hp. unfold world. simpl. by apply settle_pending. Qed.

(** The specification's example: three calls, then the response
    [{id: "3", error: {code: 401, message: "bad token"}}] to the third. *)
Lemma ack_settles_by_error_witness :
  let bad := {| RPCError.code := 401; RPCError.message := "bad token";
                RPCError.data := None |} in
  let w := world ((request "a" "m" VNull;; request "b" "m" VNull;;
                   request "c" "m" VNull) (fresh "s")) in
  promises w !! 2%nat = Some Pending
  ∧ promises (world (ack_arrives (AckSettle 2%nat)
                       {| RPCResponse.id := VStr "3"; RPCResponse.result := None;
                          RPCResponse.error := Some (RPCError.to_value bad) |} w))
      !! 2%nat
    = Some (Rejected (VObj [("code", VNum 401); ("message", VStr "bad token")])).
Proof.
  split; [reflexivity|].
  apply (ack_settles_by_error 2%nat
           (world ((request "a" "m" VNull;; request "b" "m" VNull;;
                    request "c" "m" VNull) (fresh "s")))
           (VStr "3") None
           {| RPCError.code := 401; RPCError.message := "bad token";
              RPCError.data := None |}).
  reflexivity.
Defined.

(** ** Inbound dispatch *)

(** What the listener of [onRequest] does, case by case. *)
Lemma onRequest_listener_unfold method handler req cb w :
  onRequest_listener method handler req cb w
  = (tt, w,
     if String.eqb (RPCRequest.method req) method then
       HandlerCall (tag handler) (index0 (RPCRequest.params req))
       :: match run handler (index0 (RPCRequest.params req)) with
          | Pending => []
          | Fulfilled v =>
              [AckCall cb {| RPCResponse.id := VStr (RPCRequest.id req);
                             RPCResponse.result := Some v;
                             RPCResponse.error := None |}]
          | Rejected err =>
              [AckCall cb {| RPCResponse.id := VStr (RPCRequest.id req);
                             RPCResponse.result := None;
                             RPCResponse.error :=
                               Some (VObj [("code", VNum 500); ("message", err)]) |};
               AckCall cb {| RPCResponse.id := VStr (RPCRequest.id req);
                             RPCResponse.result := Some VUndefined;
                             RPCResponse.error := None |}]
          end
     else []).
Proof.
  unfold onRequest_listener.
  destruct (String.eqb _ _); [|reflexivity].
  unfold call_handler, mbind, M_bind, bind, tell, ret. simpl.
  by destruct (run handler _).
Qed.

Lemma run_listener_pure l req cb w :
  run_listener l req cb w = (tt, w, events (run_listener l req cb w)).
Proof.
  destruct l as [method handler|t]; simpl; [|reflexivity].
  by rewrite onRequest_listener_unfold.
Qed.

Lemma run_listener_events l req cb w w' :
  events (run_listener l req cb w) = events (run_listener l req cb w').
Proof.
  destruct l as [method handler|t]; simpl; [|reflexivity].
  by rewrite !onRequest_listener_unfold.
Qed.

Lemma dispatch_snoc ls l req cb w :
  forM_ (λ l, run_listener l req cb) (ls ++ [l]) w
  = (tt, w,
     events (forM_ (λ l, run_listener l req cb) ls w)
     ++ events (run_listener l req cb w)).
Proof.
  induction ls as [|l0 ls IH]; simpl.
  - unfold mbind, M_bind, bind. rewrite run_listener_pure. simpl.
    by rewrite app_nil_r.
  - unfold mbind, M_bind, bind in *. rewrite (run_listener_pure l0). simpl.
    rewrite IH. simpl.
    destruct (forM_ _ ls w) as [[[] w1] e1]. simpl.
    by rewrite app_assoc.
Qed.

Lemma listeners_of_snoc event l ls :
  listeners_of event (ls ++ [(event, l)]) = listeners_of event ls ++ [l].
Proof.
  unfold listeners_of. rewrite omap_app. simpl.
  by rewrite String.eqb_refl.
Qed.

(** An arriving request reaches a newly registered handler after the
    listeners that were there before it. *)
Lemma rpc_arrives_onRequest method handler req cb w :
  let w' := world (onRequest method handler w) in
  rpc_arrives req cb w'
  = (tt, w',
     events (rpc_arrives req cb w)
     ++ events (onRequest_listener method handler req cb w')).
Proof.
  unfold rpc_arrives, onRequest, socket_on, world, mbind, M_bind, bind, get.
  simpl. rewrite listeners_of_snoc, dispatch_snoc. simpl.
  destruct (forM_ _ _ _) as [[[] w1] e1] eqn:E1. simpl.
  destruct (forM_ _ _ w) as [[[] w2] e2] eqn:E2. simpl.
  f_equal. f_equal.
  clear -E1 E2. revert w1 e1 w2 e2 E1 E2.
  generalize (listeners_of RPCEvent (Socket.listeners (LiveClient.socket (client w)))).
  intros ls. induction ls as [|l0 ls IH]; simpl; intros w1 e1 w2 e2 E1 E2.
  - by inversion E1; inversion E2.
  - unfold mbind, M_bind, bind in *.
    rewrite (run_listener_pure l0) in E1. rewrite (run_listener_pure l0) in E2.
    simpl in *.
    destruct (forM_ _ ls _) as [[[] w1'] e1'] eqn:E1' in E1.
    destruct (forM_ _ ls w) as [[[] w2'] e2'] eqn:E2' in E2.
    inversion E1; inversion E2; subst.
    f_equal; [apply run_listener_events|]. by eapply IH.
Qed.

(** C7: a registered handler that fulfils with [V] on an envelope of its
    method makes the listener call the handler on [params[0]] and then the
    acknowledgement function once, with [{id: envelope.id, result: V}]; the
    reply has no [error].  [rpc_arrives] in [w] is what the listeners
    registered earlier do. *)
Theorem onRequest_success_acknowledges_once method handler req cb V w :
  RPCRequest.method req = method →
  run handler (index0 (RPCRequest.params req)) = Fulfilled V →
  let w' := world (onRequest method handler w) in
  rpc_arrives req cb w'
  = (tt, w',
     events (rpc_arrives req cb w)
     ++ [HandlerCall (tag handler) (index0 (RPCRequest.params req));
         AckCall cb {| RPCResponse.id := VStr (RPCRequest.id req);
                       RPCResponse.result := Some V;
                       RPCResponse.error := None |}]).
Proof.
  intros Hm HV w'. subst w'. rewrite rpc_arrives_onRequest.
  rewrite onRequest_listener_unfold. simpl.
  apply String.eqb_eq in Hm. by rewrite Hm, HV.
Qed.

Lemma onRequest_success_acknowledges_once_witness :
  let echo := {| tag := 1; run := λ x, Fulfilled x |} in
  let req := {| RPCRequest.id := "7"; RPCRequest.method := "Foo.Bar";
                RPCRequest.params := [VNum 5] |} in
  events (rpc_arrives req 0 (world (onRequest "Foo.Bar" echo (fresh "s"))))
  = [HandlerCall 1 (VNum 5);
     AckCall 0 {| RPCResponse.id := VStr "7";
                  RPCResponse.result := Some (VNum 5);
                  RPCResponse.error := None |}].
Proof.
  intros echo req.
  rewrite (onRequest_success_acknowledges_once "Foo.Bar" echo req 0 (VNum 5)
             (fresh "s") eq_refl eq_refl).
  reflexivity.
Defined.

(** A handler that rejects on an envelope of its method: the listener
    calls the acknowledgement function from the [catch] and then again
    from the [then] chained after it. *)
Lemma onRequest_listener_rejected method handler req cb err w :
  RPCRequest.method req = method →
  run handler (index0 (RPCRequest.params req)) = Rejected err →
  events (onRequest_listener method handler req cb w)
  = [HandlerCall (tag handler) (index0 (RPCRequest.params req));
     AckCall cb {| RPCResponse.id := VStr (RPCRequest.id req);
                   RPCResponse.result := None;
                   RPCResponse.error :=
                     Some (VObj [("code", VNum 500); ("message", err)]) |};
     AckCall cb {| RPCResponse.id := VStr (RPCRequest.id req);
                   RPCResponse.result := Some VUndefined;
                   RPCResponse.error := None |}].
Proof.
  intros Hm He. rewrite onRequest_listener_unfold. simpl.
  apply String.eqb_eq in Hm. by rewrite Hm, He.
Qed.

(** C1, on the code: for the envelope [{id: "7", method: "Foo.Bar"}] and a
    handler of "Foo.Bar" that rejects with "boom", the acknowledgement
    function is called twice: with the error reply of code 500, and then
    with [{id: "7", result: undefined}]. *)
Theorem onRequest_failure_acknowledges_twice :
  let failing := {| tag := 1; run := λ _, Rejected (VStr "boom") |} in
  let req := {| RPCRequest.id := "7"; RPCRequest.method := "Foo.Bar";
                RPCRequest.params := [VNum 5] |} in
  events (rpc_arrives req 0 (world (onRequest "Foo.Bar" failing (fresh "s"))))
  = [HandlerCall 1 (VNum 5);
     AckCall 0 {| RPCResponse.id := VStr "7";
                  RPCResponse.result := None;
                  RPCResponse.error :=
                    Some (VObj [("code", VNum 500); ("message", VStr "boom")]) |};
     AckCall 0 {| RPCResponse.id := VStr "7";
                  RPCResponse.result := Some VUndefined;
                  RPCResponse.error := None |}].
Proof. reflexivity. Qed.

(** C6: registering [onRequest(method, handler)] adds to the handling of
    an arriving envelope exactly what its listener does, after the
    listeners registered before: a call of [handler], on [params[0]], if
    and only if the envelope's method is [method]; for any other envelope
    it adds nothing, neither a call of the handler nor an acknowledgement,
    and the client is left as it was. *)
Theorem onRequest_filters_by_method method handler req cb w :
  let w' := world (onRequest method handler w) in
  ∃ added,
    rpc_arrives req cb w' = (tt, w', events (rpc_arrives req cb w) ++ added)
    ∧ (∀ x, HandlerCall (tag handler) x ∈ added
            ↔ RPCRequest.method req = method
              ∧ x = index0 (RPCRequest.params req))
    ∧ (RPCRequest.method req ≠ method → added = []).
Proof.
  intros w'. subst w'.
  exists (events (onRequest_listener method handler req cb
                    (world (onRequest method handler w)))).
  split; [apply rpc_arrives_onRequest|].
  rewrite onRequest_listener_unfold. unfold events at 1 2. simpl.
  destruct (String.eqb_spec (RPCRequest.method req) method) as [Hm|Hm].
  - split; [|done]. intros x. rewrite elem_of_cons. split.
    + intros [Hx|Hx]; [by inversion Hx|].
      exfalso. destruct (run handler _);
        repeat (apply elem_of_cons in Hx as [Hx|Hx]; [discriminate|]);
        by apply elem_of_nil in Hx.
    + intros [_ ->]. by left.
  - split; [|done]. intros x. split; [by intros ?%elem_of_nil|]. by intros [? _].
Qed.

Lemma onRequest_filters_by_method_witness :
  let echo := {| tag := 1; run := λ x, Fulfilled x |} in
  let w' := world (onRequest "Foo.Bar" echo (fresh "s")) in
  let bar := {| RPCRequest.id := "7"; RPCRequest.method := "Foo.Bar";
                RPCRequest.params := [VNum 5] |} in
  let baz := {| RPCRequest.id := "8"; RPCRequest.method := "Foo.Baz";
                RPCRequest.params := [VNum 5] |} in
  HandlerCall 1 (VNum 5) ∈ events (rpc_arrives bar 0 w')
  ∧ rpc_arrives baz 0 w' = (tt, w', []).
Proof.
  intros echo w' bar baz. split.
  - destruct (onRequest_filters_by_method "Foo.Bar" echo bar 0 (fresh "s"))
      as (added & Heq & Hiff & _).
    fold w' in Heq. rewrite Heq. unfold events at 1. simpl.
    apply (proj2 (Hiff (VNum 5))). by split.
  - destruct (onRequest_filters_by_method "Foo.Bar" echo baz 0 (fresh "s"))
      as (added & Heq & _ & Hne).
    fold w' in Heq. rewrite Heq, Hne; [reflexivity|discriminate].
Defined.

(** ** Call ids *)

Lemma toString_inj : Inj (=) (=) toString.
Proof. unfold toString. apply _. Qed.

Lemma MAX_SAFE_pos : 0 < MAX_SAFE.
Proof. reflexivity. Qed.

Lemma js_incr_min c :
  c ≤ MAX_SAFE → js_incr c = N.min (c + 1) MAX_SAFE.
Proof. unfold js_incr. destruct (N.ltb_spec c MAX_SAFE); lia. Qed.

Lemma sent_app e1 e2 : sent (e1 ++ e2) = sent e1 ++ sent e2.
Proof. apply omap_app. Qed.

Lemma forM__cons {A} (f : A → M unit) x l w :
  forM_ f (x :: l) w
  = (tt, world (forM_ f l (world (f x w))),
     events (f x w) ++ events (forM_ f l (world (f x w)))).
Proof.
  simpl. unfold mbind, M_bind, bind.
  destruct (f x w) as [[[] w1] e1]. unfold world, events. simpl.
  by destruct (forM_ f l w1) as [[[] w2] e2].
Qed.

Lemma run_actions_cons a l w :
  run_actions (a :: l) w
  = (tt, world (run_actions l (world (act a w))),
     events (act a w) ++ events (run_actions l (world (act a w)))).
Proof. apply forM__cons. Qed.

(** The listeners never touch the client or the socket's outbox. *)
Lemma dispatch_pure ls req cb w :
  world (forM_ (λ l, run_listener l req cb) ls w) = w
  ∧ sent (events (forM_ (λ l, run_listener l req cb) ls w)) = [].
Proof.
  induction ls as [|l ls [IHw IHe]]; [done|].
  simpl. unfold mbind, M_bind, bind. rewrite (run_listener_pure l). simpl.
  destruct (forM_ _ ls w) as [[[] w1] e1]. unfold world, events in *. simpl in *.
  split; [done|]. rewrite sent_app, IHe, app_nil_r.
  destruct l as [method handler|t]; simpl; [|done].
  rewrite onRequest_listener_unfold. simpl.
  destruct (String.eqb _ _); [|done]. by destruct (run handler _).
Qed.

Lemma settle_client p s w : client (settle p s w) = client w.
Proof. unfold settle. by repeat case_match. Qed.

(** A call advances the counter and issues its new value as the id. *)
Lemma act_call a w :
  is_call a = true →
  LiveClient.id (client (world (act a w))) = js_incr (LiveClient.id (client w))
  ∧ issued_ids (events (act a w)) = [toString (js_incr (LiveClient.id (client w)))].
Proof. by destruct a as [[]| |]. Qed.

(** Nothing else reads or writes the counter, or emits an envelope. *)
Lemma act_other a w :
  is_call a = false →
  LiveClient.id (client (world (act a w))) = LiveClient.id (client w)
  ∧ issued_ids (events (act a w)) = [].
Proof.
  destruct a as [[]|[p] r|req cb]; try done; intros _.
  - simpl. unfold ack_body. destruct (truthy _); simpl;
      unfold world; simpl; by rewrite settle_client.
  - simpl. unfold rpc_arrives, mbind, M_bind, bind, get.
    destruct (dispatch_pure
                (listeners_of RPCEvent (Socket.listeners (LiveClient.socket (client w))))
                req cb w) as [Hw He].
    destruct (forM_ _ _ w) as [[[] w1] e1]. unfold world, events in *.
    simpl in *. unfold issued_ids. by rewrite Hw, He.
Qed.

Lemma issued_ids_app e1 e2 : issued_ids (e1 ++ e2) = issued_ids e1 ++ issued_ids e2.
Proof. unfold issued_ids. by rewrite sent_app, fmap_app. Qed.

(** The ids of a run: the counter values, which stop growing at 2^53. *)
Lemma issued_ids_saturate l w :
  LiveClient.id (client w) ≤ MAX_SAFE →
  issued_ids (events (run_actions l w))
  = (λ k, toString (N.min (LiveClient.id (client w) + N.of_nat k) MAX_SAFE))
      <$> seq 1 (calls l).
Proof.
  revert w. induction l as [|a l IH]; intros w Hw; [done|].
  rewrite run_actions_cons. unfold events at 1. simpl.
  rewrite issued_ids_app. unfold calls. rewrite filter_cons.
  destruct (is_call a) eqn:Ha.
  - destruct (act_call a w Ha) as [Hid Hids].
    rewrite decide_True by done. simpl length. fold (calls l).
    rewrite Hids, IH by (rewrite Hid, js_incr_min; lia).
    rewrite Hid. simpl. f_equal.
    + f_equal. rewrite js_incr_min by done. lia.
    + rewrite <-(fmap_S_seq 1 (calls l)), <-list_fmap_compose.
      apply list_fmap_ext. intros _ k _. simpl. f_equal.
      rewrite js_incr_min by done. lia.
  - destruct (act_other a w Ha) as [Hid Hids].
    rewrite decide_False by (by intros []). fold (calls l).
    rewrite Hids, IH by (by rewrite Hid). by rewrite Hid.
Qed.

Lemma seq_of_nat_increasing s n :
  StronglySorted N.lt (N.of_nat <$> seq s n).
Proof.
  revert s. induction n as [|n IH]; intros s; simpl; constructor; [apply IH|].
  apply Forall_fmap, Forall_seq. intros j Hj. simpl. lia.
Qed.

Lemma calls_flood n : calls (flood n) = n.
Proof.
  unfold calls, flood. induction n as [|n IH]; [done|].
  cbn [replicate]. rewrite filter_cons_True by done. cbn [length]. by rewrite IH.
Qed.

Lemma saturated_ids_repeat (m : N) (n : nat) :
  0 < m → m < N.of_nat n →
  ¬ NoDup ((λ k, toString (N.min (0 + N.of_nat k) m)) <$> seq 1 n).
Proof.
  intros Hpos Hn Hnd.
  assert (Hlt1 : (N.to_nat (m - 1) < n)%nat) by lia.
  assert (Hlt2 : (N.to_nat m < n)%nat) by lia.
  assert (N.to_nat (m - 1) = N.to_nat m) as Heq; [|lia].
  eapply (NoDup_lookup _ _ _ (toString m) Hnd).
  - rewrite list_lookup_fmap, (lookup_seq_lt 1 n _ Hlt1). simpl.
    do 2 f_equal. lia.
  - rewrite list_lookup_fmap, (lookup_seq_lt 1 n _ Hlt2). simpl.
    do 2 f_equal. lia.
Qed.

(** Once more than 2^53 calls have been made, two of them carry the same id. *)
Lemma flood_repeats sid n :
  MAX_SAFE < N.of_nat n →
  ¬ NoDup (issued_ids (events (run_actions (flood n) (fresh sid)))).
Proof.
  intros Hn. rewrite issued_ids_saturate by (apply N.le_0_l).
  rewrite calls_flood.
  exact (saturated_ids_repeat MAX_SAFE n MAX_SAFE_pos Hn).
Qed.

(** C3, on the code: a fresh client that is called 2^53 + 1 times issues
    an id twice; the counter is a double and no longer grows at 2^53. *)
Lemma ids_repeat_beyond_max_safe :
  ¬ NoDup (issued_ids (events (run_actions (flood (N.to_nat (MAX_SAFE + 1)))
                                           (fresh "s")))).
Proof. apply flood_repeats. rewrite N2Nat.id. lia. Qed.

(** C3, amended: as long as a client has made at most 2^53 calls
    ([request], [authenticate], [getRegisteredAgents]), whatever else
    happened in between, the ids it issued are the decimal strings of
    1, 2, 3, ... in this order: strictly increasing integers, and no
    string twice. *)
Theorem issued_ids_increasing sid l :
  N.of_nat (calls l) ≤ MAX_SAFE →
  let ids := issued_ids (events (run_actions l (fresh sid))) in
  let ns := N.of_nat <$> seq 1 (calls l) in
  ids = toString <$> ns ∧ StronglySorted N.lt ns ∧ NoDup ids.
Proof.
  intros Hn ids ns.
  assert (Hids : ids = toString <$> ns).
  { subst ids ns. rewrite issued_ids_saturate by apply N.le_0_l.
    rewrite <-list_fmap_compose. apply list_fmap_ext.
    intros i k [-> Hi]%lookup_seq. simpl. f_equal. lia. }
  split; [done|]. split; [apply seq_of_nat_increasing|].
  rewrite Hids. subst ns. rewrite <-list_fmap_compose.
  apply NoDup_fmap_2; [|apply NoDup_seq].
  apply compose_inj with (=); [intros ??; apply Nat2N.inj|apply toString_inj].
Qed.

Lemma issued_ids_increasing_witness :
  issued_ids (events (run_actions
                        [Invoke (CallRequest "peerA" "Foo.Bar" VNull);
                         Invoke (CallNotify "Chat.Message" VNull);
                         Invoke (CallAuthenticate "token");
                         Invoke CallGetRegisteredAgents]
                        (fresh "s")))
  = ["1"; "2"; "3"].
Proof.
  refine (proj1 (issued_ids_increasing "s"
                   [Invoke (CallRequest "peerA" "Foo.Bar" VNull);
                    Invoke (CallNotify "Chat.Message" VNull);
                    Invoke (CallAuthenticate "token");
                    Invoke CallGetRegisteredAgents] _)).
  vm_compute. discriminate.
Defined.

(** ** Concurrent calls *)

Lemma value_run {A} (a : A) w e : value (a, w, e) = a.
Proof. reflexivity. Qed.

Lemma world_run {A} (a : A) w e : world (a, w, e) = w.
Proof. reflexivity. Qed.

Lemma events_run {A} (a : A) w e : events (a, w, e) = e.
Proof. reflexivity. Qed.

Lemma settle_other p q s w :
  p ≠ q → promises (settle p s w) !! q = promises w !! q.
Proof.
  intros Hpq. unfold settle. repeat case_match; try done.
  simpl. by apply list_lookup_insert_ne.
Qed.

Lemma ack_arrives_unfold p r w :
  ack_arrives (AckSettle p) r w
  = (tt, settle p (outcome r) w,
     [if truthy (prop (RPCResponse.error r))
      then Reject p (prop (RPCResponse.error r))
      else Resolve p (prop (RPCResponse.result r))]).
Proof. simpl. unfold ack_body, outcome. by destruct (truthy _). Qed.

Lemma settlements_app p e1 e2 :
  settlements p (e1 ++ e2) = (settlements p e1 + settlements p e2)%nat.
Proof. unfold settlements. by rewrite filter_app, length_app. Qed.

Lemma settlements_ack p q r w :
  settlements q (events (ack_arrives (AckSettle p) r w))
  = if decide (p = q) then 1%nat else 0%nat.
Proof.
  rewrite ack_arrives_unfold. unfold events, settlements. simpl.
  rewrite filter_cons, filter_nil.
  destruct (truthy _); simpl; destruct (decide (p = q)) as [->|Hne];
    rewrite ?bool_decide_eq_true_2, ?bool_decide_eq_false_2 by done;
    by repeat case_decide.
Qed.

Lemma deliver_cons a r ds w :
  deliver ((a, r) :: ds) w
  = (tt, world (deliver ds (world (ack_arrives a r w))),
     events (ack_arrives a r w) ++ events (deliver ds (world (ack_arrives a r w)))).
Proof. unfold deliver. by rewrite forM__cons. Qed.

(** Acknowledgements of other calls leave a promise alone. *)
Lemma deliver_other ds w q :
  AckSettle q ∉ ds.*1 →
  promises (world (deliver ds w)) !! q = promises w !! q
  ∧ settlements q (events (deliver ds w)) = 0%nat.
Proof.
  revert w. induction ds as [|[[p] r] ds IH]; intros w Hq; [done|].
  rewrite deliver_cons, world_run, events_run.
  apply not_elem_of_cons in Hq as [Hpq Hq].
  assert (p ≠ q) by (intros ->; by apply Hpq).
  destruct (IH (world (ack_arrives (AckSettle p) r w)) Hq) as [IHp IHs].
  rewrite settlements_app, IHs, settlements_ack, IHp, decide_False by done.
  split; [|done]. rewrite ack_arrives_unfold. unfold world. simpl.
  by apply settle_other.
Qed.

(** Each acknowledgement settles the promise of its own call, once. *)
Lemma deliver_settles ds w :
  NoDup ds.*1 →
  (∀ p r, (AckSettle p, r) ∈ ds → promises w !! p = Some Pending) →
  ∀ p r, (AckSettle p, r) ∈ ds →
    promises (world (deliver ds w)) !! p = Some (outcome r)
    ∧ settlements p (events (deliver ds w)) = 1%nat.
Proof.
  revert w. induction ds as [|[[p0] r0] ds IH]; intros w Hnd Hpend p r Hin.
  { by apply elem_of_nil in Hin. }
  rewrite deliver_cons, world_run, events_run.
  rewrite fmap_cons in Hnd. apply NoDup_cons in Hnd as [Hp0 Hnd].
  rewrite settlements_app, settlements_ack.
  apply elem_of_cons in Hin as [Heq|Hin].
  - inversion Heq; subst p0 r0.
    destruct (deliver_other ds (world (ack_arrives (AckSettle p) r w)) p Hp0)
      as [Hp Hs].
    rewrite Hp, Hs, decide_True by done. split; [|done].
    rewrite ack_arrives_unfold. unfold world. simpl.
    apply settle_pending, (Hpend p r). by left.
  - assert (p0 ≠ p) as Hne.
    { intros ->. apply Hp0. apply list_elem_of_fmap. by exists (AckSettle p, r). }
    rewrite decide_False by done.
    apply (IH (world (ack_arrives (AckSettle p0) r0 w))); [done| |done].
    intros p' r' Hin'.
    assert (p0 ≠ p') as Hne'.
    { intros ->. apply Hp0. apply list_elem_of_fmap. by exists (AckSettle p', r'). }
    rewrite ack_arrives_unfold. unfold world. simpl.
    rewrite settle_other by done. apply (Hpend p' r'). by right.
Qed.

Lemma forM_cons {A B} (f : A → M B) x l w :
  forM f (x :: l) w
  = (value (f x w) :: value (forM f l (world (f x w))),
     world (forM f l (world (f x w))),
     events (f x w) ++ events (forM f l (world (f x w)))).
Proof.
  simpl. unfold mbind, M_bind, bind, ret.
  destruct (f x w) as [[y w1] e1]. unfold value, world, events. simpl.
  destruct (forM f l w1) as [[ys w2] e2]. simpl. by rewrite app_nil_r.
Qed.

(** Calls made in a row get consecutive promises, all pending, and the
    acknowledgement function of each settles its own promise. *)
Lemma call_all_unfold cs w :
  value (call_all cs w) = seq (length (promises w)) (length cs)
  ∧ promises (world (call_all cs w))
    = promises w ++ replicate (length cs) Pending
  ∧ (sent (events (call_all cs w))).*2
    = AckSettle <$> seq (length (promises w)) (length cs).
Proof.
  revert w. induction cs as [|[[a m] x] cs IH]; intros w.
  { unfold call_all, value, world, events. simpl. by rewrite app_nil_r. }
  unfold call_all. rewrite forM_cons. fold (call_all cs).
  rewrite value_run, world_run, events_run. cbn [fst snd].
  destruct (IH (world (request a m x w))) as (IHv & IHp & IHs).
  rewrite IHv, IHp, sent_app, fmap_app, IHs.
  rewrite request_unfold. unfold Spec.call, value, world, events. simpl.
  rewrite length_app. simpl. rewrite Nat.add_1_r.
  repeat split; try done. by rewrite <-app_assoc.
Qed.

Lemma NoDup_fst_unique {A B} (l : list (A * B)) x y1 y2 :
  NoDup l.*1 → (x, y1) ∈ l → (x, y2) ∈ l → y1 = y2.
Proof.
  intros Hnd [i Hi]%list_elem_of_lookup [j Hj]%list_elem_of_lookup.
  assert (i = j) as ->.
  { apply (NoDup_lookup l.*1 i j x Hnd); by rewrite list_lookup_fmap, ?Hi, ?Hj. }
  congruence.
Qed.

(** While the counter is below 2^53, the calls of a batch carry the
    counter values that follow the current one. *)
Lemma call_all_ids cs w :
  LiveClient.id (client w) + N.of_nat (length cs) ≤ MAX_SAFE →
  (sent (events (call_all cs w))).*1
  = (λ k, toString (LiveClient.id (client w) + N.of_nat k)) <$> seq 1 (length cs).
Proof.
  revert w. induction cs as [|[[a m] x] cs IH]; intros w Hw; [done|].
  unfold call_all. rewrite forM_cons, events_run. fold (call_all cs).
  rewrite sent_app, fmap_app. cbn [length] in *.
  assert (js_incr (LiveClient.id (client w)) = LiveClient.id (client w) + 1) as Hincr.
  { unfold js_incr. destruct (N.ltb_spec (LiveClient.id (client w)) MAX_SAFE); lia. }
  rewrite IH by (rewrite request_id, Hincr; lia).
  rewrite request_id, Hincr.
  rewrite request_unfold. unfold Spec.call, events. cbn [fst snd].
  rewrite Hincr.
  assert ((λ k, toString (LiveClient.id (client w) + 1 + N.of_nat k))
            <$> seq 1 (length cs)
          = (λ k, toString (LiveClient.id (client w) + N.of_nat k))
              <$> seq 2 (length cs)) as Hshift.
  { rewrite <-(fmap_S_seq 1 (length cs)), <-list_fmap_compose.
    apply list_fmap_ext. intros _ k _. simpl. f_equal. lia. }
  simpl. f_equal. apply Hshift.
Qed.

Lemma call_all_ids_NoDup cs w :
  LiveClient.id (client w) + N.of_nat (length cs) ≤ MAX_SAFE →
  NoDup (sent (events (call_all cs w))).*1.
Proof.
  intros Hw. rewrite call_all_ids by done.
  apply NoDup_fmap_2; [|apply NoDup_seq].
  intros k1 k2 Hk. apply toString_inj in Hk. lia.
Qed.

(** The counter after a run. *)
Lemma run_counter l w :
  LiveClient.id (client w) ≤ MAX_SAFE →
  LiveClient.id (client (world (run_actions l w)))
  = N.min (LiveClient.id (client w) + N.of_nat (calls l)) MAX_SAFE.
Proof.
  revert w. induction l as [|a l IH]; intros w Hw.
  { unfold calls, run_actions, world. simpl. lia. }
  rewrite run_actions_cons, world_run. unfold calls. rewrite filter_cons.
  destruct (is_call a) eqn:Ha.
  - destruct (act_call a w Ha) as [Hid _].
    rewrite decide_True by done. cbn [length]. fold (calls l).
    rewrite IH by (rewrite Hid, js_incr_min; lia).
    rewrite Hid, js_incr_min by done. lia.
  - destruct (act_other a w Ha) as [Hid _].
    rewrite decide_False by (by intros []). fold (calls l).
    rewrite IH by (by rewrite Hid). by rewrite Hid.
Qed.

(** A client that has made 2^53 calls or more has its counter at 2^53. *)
Lemma flood_saturates sid n :
  MAX_SAFE ≤ N.of_nat n →
  LiveClient.id (client (world (run_actions (flood n) (fresh sid)))) = MAX_SAFE.
Proof.
  intros Hn. rewrite run_counter by apply N.le_0_l.
  rewrite calls_flood. simpl LiveClient.id. lia.
Qed.

Lemma call_all_two_sent a1 m1 x1 a2 m2 x2 w :
  sent (events (call_all [(a1, m1, x1); (a2, m2, x2)] w))
  = [(toString (js_incr (LiveClient.id (client w))),
      AckSettle (length (promises w)));
     (toString (js_incr (js_incr (LiveClient.id (client w)))),
      AckSettle (S (length (promises w))))].
Proof.
  unfold call_all. rewrite !forM_cons, !events_run. cbn [fst snd].
  rewrite (request_unfold a1). unfold Spec.call at 1 2 3, world at 1 2, events at 1.
  cbn [fst snd]. rewrite (request_unfold a2). unfold Spec.call, world, events.
  cbn -[js_incr toString].
  by rewrite length_app, Nat.add_1_r.
Qed.

(** Two calls on a client whose counter has reached 2^53 carry the same
    id; answered by two different responses that both carry that id, they
    cannot both be settled by the response with their id. *)
Lemma saturated_calls_share_id w :
  LiveClient.id (client w) = MAX_SAFE →
  let cs := [("peerA", "Foo.Bar", VNull); ("peerB", "Foo.Baz", VNull)] in
  let n := length (promises w) in
  let ds := [(AckSettle n,
              {| RPCResponse.id := VStr (toString MAX_SAFE);
                 RPCResponse.result := Some (VNum 10);
                 RPCResponse.error := None |});
             (AckSettle (S n),
              {| RPCResponse.id := VStr (toString MAX_SAFE);
                 RPCResponse.result := Some (VNum 20);
                 RPCResponse.error := None |})] in
  acknowledged_once w cs ds ∧ conformant w cs ds ∧ ¬ receives_by_id w cs ds.
Proof.
  intros Hid cs n ds.
  assert (sent (events (call_all cs w))
          = [(toString MAX_SAFE, AckSettle n); (toString MAX_SAFE, AckSettle (S n))])
    as Hsent.
  { subst cs n. rewrite call_all_two_sent, Hid.
    by change (js_incr MAX_SAFE) with MAX_SAFE. }
  assert (value (call_all cs w) = [n; S n]) as Hvalue.
  { destruct (call_all_unfold cs w) as (Hv & _ & _). rewrite Hv. reflexivity. }
  set (smax := toString MAX_SAFE) in *. clearbody smax.
  split; [|split].
  - unfold acknowledged_once. by rewrite Hsent.
  - intros a r s Ha Hs. rewrite Hsent in Hs.
    repeat (apply elem_of_cons in Ha as [Ha|Ha];
            [inversion Ha; subst;
             repeat (apply elem_of_cons in Hs as [Hs|Hs];
                     [by inversion Hs|]);
             by apply elem_of_nil in Hs|]).
    by apply elem_of_nil in Ha.
  - intros Hclaim.
    destruct (Hclaim 0%nat n smax (AckSettle n)
                {| RPCResponse.id := VStr smax;
                   RPCResponse.result := Some (VNum 20);
                   RPCResponse.error := None |}) as [Hp _].
    + by rewrite Hvalue.
    + by rewrite Hsent.
    + right. left.
    + reflexivity.
    + assert (NoDup ds.*1) as Hnd.
      { subst ds. cbn [fmap list_fmap fst].
        apply NoDup_cons. split; [|apply NoDup_singleton].
        intros Hin. apply elem_of_cons in Hin as [Hin|Hin];
          [injection Hin; lia|by apply elem_of_nil in Hin]. }
      assert (∀ p r, (AckSettle p, r) ∈ ds →
                     promises (world (call_all cs w)) !! p = Some Pending)
        as Hpend.
      { intros p r Hin.
        destruct (call_all_unfold cs w) as (_ & Hps & _). rewrite Hps.
        subst ds.
        repeat (apply elem_of_cons in Hin as [Hin|Hin];
                [inversion Hin; subst; rewrite lookup_app_r by (subst n; lia);
                 apply lookup_replicate_2; subst n; simpl; lia|]).
        by apply elem_of_nil in Hin. }
      destruct (deliver_settles ds (world (call_all cs w)) Hnd Hpend n
                  {| RPCResponse.id := VStr smax;
                     RPCResponse.result := Some (VNum 10);
                     RPCResponse.error := None |}) as [Hreal _]; [by left|].
      rewrite Hreal in Hp. discriminate.
Qed.

(** C2, on the code: the claim fails in two ways.  The client pairs a
    response with a call by the acknowledgement function the response is
    passed to and never reads its id: when the response with id "2" is
    passed to the acknowledgement function of call "1", call "1" gets its
    result.  And a client that has made 2^53 calls issues the same id to
    both of two further calls, so that two responses carry the id of
    each, and each call gets the result of only one of them. *)
Lemma concurrent_calls_not_matched_by_id :
  (let cs := [("peerA", "Foo.Bar", VNull); ("peerB", "Foo.Baz", VNull)] in
   let ds := [(AckSettle 0%nat,
               {| RPCResponse.id := VStr "2"; RPCResponse.result := Some (VNum 20);
                  RPCResponse.error := None |});
              (AckSettle 1%nat,
               {| RPCResponse.id := VStr "1"; RPCResponse.result := Some (VNum 10);
                  RPCResponse.error := None |})] in
   acknowledged_once (fresh "s") cs ds ∧ ¬ receives_by_id (fresh "s") cs ds)
  ∧ (let w := world (run_actions (flood (N.to_nat MAX_SAFE)) (fresh "s")) in
     let cs := [("peerA", "Foo.Bar", VNull); ("peerB", "Foo.Baz", VNull)] in
     let n := length (promises w) in
     let ds := [(AckSettle n,
                 {| RPCResponse.id := VStr (toString MAX_SAFE);
                    RPCResponse.result := Some (VNum 10);
                    RPCResponse.error := None |});
                (AckSettle (S n),
                 {| RPCResponse.id := VStr (toString MAX_SAFE);
                    RPCResponse.result := Some (VNum 20);
                    RPCResponse.error := None |})] in
     acknowledged_once w cs ds ∧ conformant w cs ds ∧ ¬ receives_by_id w cs ds).
Proof.
  split.
  - intros cs ds. split; [apply Permutation_refl|].
    intros Hclaim.
    destruct (Hclaim 0%nat 0%nat "1" (AckSettle 0%nat)
                {| RPCResponse.id := VStr "1"; RPCResponse.result := Some (VNum 10);
                   RPCResponse.error := None |}) as [Hp _];
      [reflexivity|reflexivity|right; left|reflexivity|].
    discriminate Hp.
  - apply saturated_calls_share_id. apply flood_saturates.
    rewrite N2Nat.id. apply N.le_refl.
Qed.

(** C2, amended: calls [cs] are made on one client before any response
    arrives, and every one of them is acknowledged exactly once, in any
    order.  Then the promise of every call has had [resolve] or [reject]
    called exactly once and holds the result or error of the one response
    that was passed to the acknowledgement function of its request,
    whatever id that response carries.  If moreover every response carries
    the id of the request it acknowledges and the counter stays within
    2^53, that response is the only one with the id of the call's request:
    every call holds the result or error of the response whose id is the
    id of its own request. *)
Theorem concurrent_calls_settle_by_ack w cs ds :
  acknowledged_once w cs ds →
  (∀ k p s a,
     value (call_all cs w) !! k = Some p →
     sent (events (call_all cs w)) !! k = Some (s, a) →
     ∃ r, (a, r) ∈ ds
          ∧ (∀ r', (a, r') ∈ ds → r' = r)
          ∧ promises (world (deliver ds (world (call_all cs w)))) !! p
            = Some (outcome r)
          ∧ settlements p (events (deliver ds (world (call_all cs w)))) = 1%nat)
  ∧ (conformant w cs ds →
     LiveClient.id (client w) + N.of_nat (length cs) ≤ MAX_SAFE →
     receives_by_id w cs ds).
Proof.
  unfold acknowledged_once. intros Hperm.
  destruct (call_all_unfold cs w) as (Hv & Hps & Hacks).
  assert (NoDup ds.*1) as Hnd.
  { rewrite Hperm, Hacks. apply NoDup_fmap_2; [|apply NoDup_seq]. by intros ?? [=]. }
  assert (∀ k p s a,
     value (call_all cs w) !! k = Some p →
     sent (events (call_all cs w)) !! k = Some (s, a) →
     ∃ r, (a, r) ∈ ds
          ∧ (∀ r', (a, r') ∈ ds → r' = r)
          ∧ promises (world (deliver ds (world (call_all cs w)))) !! p
            = Some (outcome r)
          ∧ settlements p (events (deliver ds (world (call_all cs w)))) = 1%nat)
    as Hown.
  { intros k p s a Hp Hsa.
    rewrite Hv in Hp. apply lookup_seq in Hp as [-> Hk].
    assert ((sent (events (call_all cs w))).*2 !! k = Some a) as Ha
      by (by rewrite list_lookup_fmap, Hsa).
    assert (a ∈ ds.*1) as Hin.
    { rewrite Hperm. apply list_elem_of_lookup. by exists k. }
    rewrite Hacks, list_lookup_fmap, lookup_seq_lt in Ha by done.
    injection Ha as <-.
    apply list_elem_of_fmap in Hin as ([a' r] & Heq & Hin). simpl in Heq. subst a'.
    exists r. split; [done|]. split.
    { intros r' Hr'. by eapply NoDup_fst_unique. }
    apply deliver_settles; [done| |done].
    intros p' r' Hin'.
    assert (AckSettle p' ∈ ds.*1) as Hp'.
    { apply list_elem_of_fmap. by exists (AckSettle p', r'). }
    rewrite Hperm, Hacks in Hp'.
    apply list_elem_of_fmap in Hp' as (q & [= ->] & Hq).
    apply elem_of_seq in Hq.
    rewrite Hps, lookup_app_r by lia. apply lookup_replicate_2. lia. }
  split; [exact Hown|].
  intros Hconf Hbound k p s a r Hp Hsa Hr Hid.
  destruct (Hown k p s a Hp Hsa) as (r0 & Hin0 & Huniq & Hstate & Hcount).
  apply list_elem_of_fmap in Hr as ([a' r'] & Heq & Hin). simpl in Heq. subst r'.
  assert (a' ∈ (sent (events (call_all cs w))).*2) as Ha'.
  { rewrite <-Hperm. apply list_elem_of_fmap. by exists (a', r). }
  apply list_elem_of_fmap in Ha' as ([s' a''] & Heq & Hs'). simpl in Heq. subst a''.
  pose proof (Hconf a' r s' Hin Hs') as Hid'.
  rewrite Hid in Hid'. injection Hid' as <-.
  apply list_elem_of_lookup in Hs' as [k' Hk'].
  assert (k' = k) as ->.
  { apply (NoDup_lookup _ k' k s (call_all_ids_NoDup cs w Hbound));
      by rewrite list_lookup_fmap, ?Hk', ?Hsa. }
  rewrite Hsa in Hk'. injection Hk' as <-.
  by rewrite (Huniq r Hin).
Qed.

(** Two calls answered in the opposite order. *)
Lemma concurrent_calls_settle_by_ack_witness :
  let cs := [("peerA", "Foo.Bar", VNull); ("peerB", "Foo.Baz", VNull)] in
  let r1 := {| RPCResponse.id := VStr "1"; RPCResponse.result := Some (VNum 10);
               RPCResponse.error := None |} in
  let r2 := {| RPCResponse.id := VStr "2"; RPCResponse.result := None;
               RPCResponse.error := Some (VObj [("code", VNum 401)]) |} in
  let ds := [(AckSettle 1%nat, r2); (AckSettle 0%nat, r1)] in
  acknowledged_once (fresh "s") cs ds ∧ receives_by_id (fresh "s") cs ds.
Proof.
  intros cs r1 r2 ds.
  assert (acknowledged_once (fresh "s") cs ds) as Hack by apply perm_swap.
  split; [exact Hack|].
  apply (proj2 (concurrent_calls_settle_by_ack (fresh "s") cs ds Hack)).
  - intros a r s Ha Hs.
    repeat (apply elem_of_cons in Ha as [Ha|Ha];
            [inversion Ha; subst;
             repeat (apply elem_of_cons in Hs as [Hs|Hs];
                     [by inversion Hs|]);
             by apply elem_of_nil in Hs|]).
    by apply elem_of_nil in Ha.
  - vm_compute. discriminate.
Defined.

Example concurrent_calls_out_of_order :
  promises (world (deliver
                     [(AckSettle 1%nat,
                       {| RPCResponse.id := VStr "2"; RPCResponse.result := None;
                          RPCResponse.error := Some (VObj [("code", VNum 401)]) |});
                      (AckSettle 0%nat,
                       {| RPCResponse.id := VStr "1";
                          RPCResponse.result := Some (VNum 10);
                          RPCResponse.error := None |})]
                     (world (call_all [("peerA", "Foo.Bar", VNull);
                                       ("peerB", "Foo.Baz", VNull)]
                                      (fresh "s")))))
  = [Fulfilled (VNum 10); Rejected (VObj [("code", VNum 401)])].
Proof. reflexivity. Qed.

(** * Further properties *)

(** ** The counter over a whole run *)

Lemma act_counter a w :
  LiveClient.id (client (world (act a w)))
  = if is_call a then js_incr (LiveClient.id (client w))
    else LiveClient.id (client w).
Proof.
  destruct (is_call a) eqn:Ha.
  - by destruct (act_call a w Ha).
  - by destruct (act_other a w Ha).
Qed.

(** X1: whatever a client has been through (calls, notifications,
    registrations, disconnects, arriving acknowledgements and requests),
    its counter is the number of calls made so far, capped at 2^53. *)
Theorem counter_counts_calls sid l :
  LiveClient.id (client (world (run_actions l (fresh sid))))
  = N.min (N.of_nat (calls l)) MAX_SAFE.
Proof.
  cut (∀ w, LiveClient.id (client w) ≤ MAX_SAFE →
            LiveClient.id (client (world (run_actions l w)))
            = N.min (LiveClient.id (client w) + N.of_nat (calls l)) MAX_SAFE).
  { intros H. rewrite H by apply N.le_0_l. simpl. f_equal. }
  induction l as [|a l IH]; intros w Hw.
  { unfold calls, run_actions, world. simpl. lia. }
  rewrite run_actions_cons, world_run.
  assert (LiveClient.id (client (world (act a w))) ≤ MAX_SAFE) as Hw'.
  { rewrite act_counter. destruct (is_call a); [|done].
    rewrite js_incr_min by done. lia. }
  rewrite IH by done. rewrite act_counter. unfold calls. rewrite filter_cons.
  destruct (is_call a).
  - rewrite decide_True by done. cbn [length]. rewrite js_incr_min by done. lia.
  - rewrite decide_False by (by intros []). done.
Qed.

(** ** What settles a promise, and what does not *)

Lemma settle_length p s w :
  length (promises (settle p s w)) = length (promises w).
Proof. unfold settle. repeat case_match; try done. simpl. apply length_insert. Qed.

Lemma settle_settled (p q : Promise) s s' w :
  promises w !! p = Some s → s ≠ Pending →
  promises (settle q s' w) !! p = Some s.
Proof.
  intros Hp Hs. destruct (decide (q = p)) as [Heq|Hne].
  - subst q. unfold settle. rewrite Hp. by destruct s.
  - by rewrite settle_other.
Qed.

Lemma world_then_ret {A} (c : M A) w : world ((c;; ret tt) w) = world (c w).
Proof.
  unfold mbind, M_bind, bind, ret, world. by destruct (c w) as [[a w1] e1].
Qed.

(** One step leaves a promise as it is, unless the promise is pending and
    the step is the arrival of its own acknowledgement. *)
Lemma act_promise_frame a w (p : Promise) s :
  promises w !! p = Some s →
  s ≠ Pending ∨ (∀ r, a ≠ AckArrives (AckSettle p) r) →
  promises (world (act a w)) !! p = Some s.
Proof.
  intros Hp Hcase.
  assert (∀ address method x,
            promises (world (request address method x w)) !! p = Some s) as Hreq.
  { intros. rewrite request_unfold. unfold Spec.call, world. simpl.
    rewrite lookup_app_l; [done|]. by eapply lookup_lt_Some. }
  destruct a as [[]|[q] r|req cb]; cbn [act invoke];
    rewrite ?world_then_ret; try apply Hreq; try done.
  - rewrite ack_arrives_unfold, world_run.
    destruct Hcase as [Hs|Hne]; [by apply settle_settled|].
    rewrite settle_other; [done|]. intros ->. by apply (Hne r).
  - unfold rpc_arrives, mbind, M_bind, bind, get.
    destruct (dispatch_pure
                (listeners_of RPCEvent (Socket.listeners (LiveClient.socket (client w))))
                req cb w) as [Hw _].
    destruct (forM_ _ _ w) as [[[] w1] e1]. unfold world in *. simpl in *.
    by rewrite Hw.
Qed.

(** X2: a call stays pending until its own acknowledgement arrives.  No
    timeout, no disconnect, no other call and no response to another call
    settles it. *)
Theorem pending_until_acknowledged l w (p : Promise) :
  promises w !! p = Some Pending →
  (∀ r, AckArrives (AckSettle p) r ∉ l) →
  promises (world (run_actions l w)) !! p = Some Pending.
Proof.
  revert w. induction l as [|a l IH]; intros w Hp Hl; [done|].
  rewrite run_actions_cons, world_run. apply IH.
  - apply act_promise_frame; [done|]. right. intros r ->.
    apply (Hl r). by left.
  - intros r Hr. apply (Hl r). by right.
Qed.

Lemma pending_until_acknowledged_witness :
  let w := world (request "peerA" "Foo.Bar" VNull (fresh "s")) in
  let l := [Invoke CallDisconnect;
            Invoke (CallRequest "peerB" "Foo.Baz" VNull);
            AckArrives (AckSettle 1%nat)
              {| RPCResponse.id := VStr "2"; RPCResponse.result := None;
                 RPCResponse.error := None |};
            Invoke (CallNotify "Chat.Message" VNull)] in
  promises (world (run_actions l w)) !! 0%nat = Some Pending.
Proof.
  intros w l. apply (pending_until_acknowledged l w 0%nat); [reflexivity|].
  intros r Hr. subst l.
  repeat (apply elem_of_cons in Hr as [Hr|Hr]; [discriminate|]).
  by apply elem_of_nil in Hr.
Defined.

(** X3: once a promise is fulfilled or rejected, nothing changes it any
    more, a second acknowledgement of the same call included. *)
Theorem settled_is_final l w (p : Promise) s :
  promises w !! p = Some s → s ≠ Pending →
  promises (world (run_actions l w)) !! p = Some s.
Proof.
  revert w. induction l as [|a l IH]; intros w Hp Hs; [done|].
  rewrite run_actions_cons, world_run. apply IH; [|done].
  apply act_promise_frame; [done|by left].
Qed.

Lemma settled_is_final_witness :
  let first := {| RPCResponse.id := VStr "1"; RPCResponse.result := Some (VNum 1);
                  RPCResponse.error := None |} in
  let second := {| RPCResponse.id := VStr "1"; RPCResponse.result := None;
                   RPCResponse.error := Some (VStr "late") |} in
  let w := world ((p ← request "peerA" "Foo.Bar" VNull;
                   ack_arrives (AckSettle p) first) (fresh "s")) in
  promises (world (run_actions [AckArrives (AckSettle 0%nat) second;
                                Invoke CallDisconnect] w)) !! 0%nat
  = Some (Fulfilled (VNum 1)).
Proof.
  intros first second w.
  apply (settled_is_final _ w 0%nat (Fulfilled (VNum 1)));
    [reflexivity|discriminate].
Defined.

(** ** Registrations *)

Lemma act_listeners a w :
  Socket.listeners (LiveClient.socket (client w))
  `prefix_of` Socket.listeners (LiveClient.socket (client (world (act a w)))).
Proof.
  destruct a as [[]|[q] r|req cb]; simpl; try done;
    try (by apply prefix_app_r).
  - unfold ack_body. destruct (truthy _); unfold world; simpl;
      by rewrite settle_client.
  - unfold rpc_arrives, mbind, M_bind, bind, get.
    destruct (dispatch_pure
                (listeners_of RPCEvent (Socket.listeners (LiveClient.socket (client w))))
                req cb w) as [Hw _].
    destruct (forM_ _ _ w) as [[[] w1] e1]. unfold world in *. simpl in *.
    by rewrite Hw.
Qed.

(** X4: the client never unsubscribes: over any run, disconnects included,
    the listeners that were registered are still registered afterwards, in
    the same order and before any newer one. *)
Theorem listeners_persist l w :
  Socket.listeners (LiveClient.socket (client w))
  `prefix_of`
  Socket.listeners (LiveClient.socket (client (world (run_actions l w)))).
Proof.
  revert w. induction l as [|a l IH]; intros w; [done|].
  rewrite run_actions_cons, world_run.
  etrans; [apply act_listeners|apply IH].
Qed.

(** ** Dispatch over all registrations *)

Lemma handler_calls_app e1 e2 :
  handler_calls (e1 ++ e2) = handler_calls e1 ++ handler_calls e2.
Proof. apply omap_app. Qed.

Lemma rpc_arrives_unfold req cb w :
  rpc_arrives req cb w
  = forM_ (λ l, run_listener l req cb)
          (listeners_of RPCEvent (Socket.listeners (LiveClient.socket (client w)))) w.
Proof.
  unfold rpc_arrives, mbind, M_bind, bind, get.
  by destruct (forM_ _ _ w) as [[[] w1] e1].
Qed.

Lemma dispatch_cons l ls req cb w :
  events (forM_ (λ l, run_listener l req cb) (l :: ls) w)
  = events (run_listener l req cb w)
    ++ events (forM_ (λ l, run_listener l req cb) ls w).
Proof.
  rewrite forM__cons, events_run.
  rewrite (run_listener_pure l) at 2. by rewrite world_run.
Qed.

(** In any state, an arriving request calls the handlers held by the
    request listeners of its method, in their order. *)
Lemma dispatch_calls_registered req cb w :
  handler_calls (events (rpc_arrives req cb w))
  = (λ h, (tag h, index0 (RPCRequest.params req)))
      <$> registered (RPCRequest.method req) w.
Proof.
  rewrite rpc_arrives_unfold. unfold registered.
  induction (listeners_of RPCEvent _) as [|l ls IH]; [done|].
  rewrite dispatch_cons, handler_calls_app, IH.
  destruct l as [m h|t]; simpl; [|done].
  rewrite onRequest_listener_unfold, events_run.
  destruct (String.eqb _ _); [|done]. simpl. f_equal.
  by destruct (run h _).
Qed.

Lemma registered_snoc m event l w s :
  Socket.listeners s = Socket.listeners (LiveClient.socket (client w)) ++ [(event, l)] →
  registered m (set_socket s w)
  = registered m w
    ++ match l with
       | RequestListener m' h =>
           if String.eqb event RPCEvent && String.eqb m m' then [h] else []
       | UserCallback _ => []
       end.
Proof.
  intros Hs. unfold registered, listeners_of. simpl. rewrite Hs, !omap_app.
  f_equal. simpl. destruct (String.eqb event RPCEvent); [|by destruct l].
  simpl. destruct l as [m' h|t]; [|done]. by destruct (String.eqb m m').
Qed.

Lemma registered_client m w w' :
  client w' = client w → registered m w' = registered m w.
Proof. unfold registered. by intros ->. Qed.

Lemma registered_listeners m w w' :
  Socket.listeners (LiveClient.socket (client w'))
  = Socket.listeners (LiveClient.socket (client w)) →
  registered m w' = registered m w.
Proof. unfold registered. by intros ->. Qed.

(** Only [onRequest] adds a handler, and nothing removes one. *)
Lemma act_registered m a w :
  registered m (world (act a w))
  = registered m w
    ++ match a with
       | Invoke (CallOnRequest m' h) => if String.eqb m m' then [h] else []
       | _ => []
       end.
Proof.
  destruct a as [[token| |method x|address method x|event t|method t
                  |method handler|]|[q] r|req cb]; cbn [act invoke];
    rewrite ?world_then_ret, ?app_nil_r.
  - by apply registered_listeners.
  - by apply registered_listeners.
  - done.
  - by apply registered_listeners.
  - unfold on, socket_on, world. cbn [fst snd].
    by rewrite (registered_snoc m event (UserCallback t)), app_nil_r.
  - unfold onNotification, socket_on, world. cbn [fst snd].
    by rewrite (registered_snoc m method (UserCallback t)), app_nil_r.
  - unfold onRequest, socket_on, world. cbn [fst snd].
    by rewrite (registered_snoc m RPCEvent (RequestListener method handler)).
  - by apply registered_listeners.
  - rewrite ack_arrives_unfold, world_run. apply registered_client, settle_client.
  - rewrite rpc_arrives_unfold.
    by rewrite (proj1 (dispatch_pure _ req cb w)).
Qed.

(** X5: on a client that started fresh and went through any run, an
    arriving request calls the handler of every [onRequest] call of the
    run that was made for exactly its method, once each and in the order
    of these calls, with [params[0]]; it calls no other handler.  A second
    [onRequest] for a method does not replace the first, both handlers are
    called, and nothing in a run (a disconnect, a raw listener on the
    same channel) takes a registration away. *)
Theorem dispatch_calls_every_registration sid l req cb :
  handler_calls (events (rpc_arrives req cb (world (run_actions l (fresh sid)))))
  = (λ mh, (tag mh.2, index0 (RPCRequest.params req)))
      <$> filter (λ mh, mh.1 = RPCRequest.method req) (onRequests l).
Proof.
  rewrite dispatch_calls_registered.
  cut (∀ w, registered (RPCRequest.method req) (world (run_actions l w))
            = registered (RPCRequest.method req) w
              ++ (filter (λ mh, mh.1 = RPCRequest.method req) (onRequests l)).*2).
  { intros ->. simpl. by rewrite <-list_fmap_compose. }
  induction l as [|a l IH]; intros w.
  { unfold run_actions, world. simpl. by rewrite app_nil_r. }
  rewrite run_actions_cons, world_run, IH, act_registered, <-app_assoc.
  f_equal. unfold onRequests. cbn [omap list_omap].
  destruct a as [[]| |]; try done.
  rewrite filter_cons. simpl.
  destruct (String.eqb_spec (RPCRequest.method req) method) as [Hm|Hm].
  - by rewrite decide_True.
  - by rewrite decide_False by (by intros ?).
Qed.

Example dispatch_duplicate_registrations :
  let first := {| tag := 1; run := λ _, Fulfilled (VStr "first") |} in
  let second := {| tag := 2; run := λ _, Fulfilled (VStr "second") |} in
  let other := {| tag := 3; run := λ _, Fulfilled VNull |} in
  let req := {| RPCRequest.id := "7"; RPCRequest.method := "Foo.Bar";
                RPCRequest.params := [] |} in
  events (rpc_arrives req 0
            (world ((onRequest "Foo.Bar" first;; onRequest "Foo.Baz" other;;
                     onRequest "Foo.Bar" second) (fresh "s"))))
  = [HandlerCall 1 VUndefined;
     AckCall 0 {| RPCResponse.id := VStr "7";
                  RPCResponse.result := Some (VStr "first");
                  RPCResponse.error := None |};
     HandlerCall 2 VUndefined;
     AckCall 0 {| RPCResponse.id := VStr "7";
                  RPCResponse.result := Some (VStr "second");
                  RPCResponse.error := None |}].
Proof. reflexivity. Qed.

(** X6: whatever is registered, every acknowledgement made for an arriving
    request goes to the callback that came with it, echoes the id of the
    envelope, and is either a result without error or an error of code 500
    without result. *)
Theorem replies_echo_id req cb w c r :
  AckCall c r ∈ events (rpc_arrives req cb w) →
  c = cb
  ∧ RPCResponse.id r = VStr (RPCRequest.id req)
  ∧ ((RPCResponse.error r = None ∧ is_Some (RPCResponse.result r))
     ∨ (RPCResponse.result r = None
        ∧ ∃ err, RPCResponse.error r
                 = Some (VObj [("code", VNum 500); ("message", err)]))).
Proof.
  rewrite rpc_arrives_unfold.
  induction (listeners_of RPCEvent _) as [|l ls IH]; [by intros ?%elem_of_nil|].
  rewrite dispatch_cons, elem_of_app. intros [Hin|Hin]; [|by apply IH].
  clear IH. destruct l as [m h|t]; simpl in Hin.
  - rewrite onRequest_listener_unfold, events_run in Hin.
    destruct (String.eqb _ _); [|by apply elem_of_nil in Hin].
    apply elem_of_cons in Hin as [Hin|Hin]; [discriminate|].
    destruct (run h _);
      repeat (apply elem_of_cons in Hin as [Hin|Hin];
              [inversion Hin; subst; simpl; eauto 10|]);
      by apply elem_of_nil in Hin.
  - apply elem_of_cons in Hin as [Hin|Hin]; [discriminate|].
    by apply elem_of_nil in Hin.
Qed.

Lemma replies_echo_id_witness :
  let echo := {| tag := 1; run := λ x, Fulfilled x |} in
  let req := {| RPCRequest.id := "7"; RPCRequest.method := "Foo.Bar";
                RPCRequest.params := [VNum 5] |} in
  let r := {| RPCResponse.id := VStr "7"; RPCResponse.result := Some (VNum 5);
              RPCResponse.error := None |} in
  RPCResponse.id r = VStr "7".
Proof.
  intros echo req r.
  refine (proj1 (proj2 (replies_echo_id req 0
                          (world (onRequest "Foo.Bar" echo (fresh "s"))) 0 r _))).
  right. left.
Defined.

(** X7: a handler that rejects with [err] on an envelope of its method
    makes the listener call the acknowledgement function twice: first with
    the error reply, whose message is [err] itself and whose code is 500
    whatever [err] is, then with a result reply holding [undefined]. *)
Theorem onRequest_rejection_acknowledges_twice method handler req cb err w :
  RPCRequest.method req = method →
  run handler (index0 (RPCRequest.params req)) = Rejected err →
  let w' := world (onRequest method handler w) in
  rpc_arrives req cb w'
  = (tt, w',
     events (rpc_arrives req cb w)
     ++ [HandlerCall (tag handler) (index0 (RPCRequest.params req));
         AckCall cb {| RPCResponse.id := VStr (RPCRequest.id req);
                       RPCResponse.result := None;
                       RPCResponse.error :=
                         Some (VObj [("code", VNum 500); ("message", err)]) |};
         AckCall cb {| RPCResponse.id := VStr (RPCRequest.id req);
                       RPCResponse.result := Some VUndefined;
                       RPCResponse.error := None |}]).
Proof.
  intros Hm He w'. subst w'. rewrite rpc_arrives_onRequest.
  by rewrite (onRequest_listener_rejected _ _ _ _ err).
Qed.

Lemma onRequest_rejection_acknowledges_twice_witness :
  let failing := {| tag := 1;
                    run := λ _, Rejected (VObj [("code", VNum 404)]) |} in
  let req := {| RPCRequest.id := "9"; RPCRequest.method := "Foo.Bar";
                RPCRequest.params := [] |} in
  acknowledged 0 (events (rpc_arrives req 0
                            (world (onRequest "Foo.Bar" failing (fresh "s")))))
  = [{| RPCResponse.id := VStr "9"; RPCResponse.result := None;
        RPCResponse.error :=
          Some (VObj [("code", VNum 500);
                      ("message", VObj [("code", VNum 404)])]) |};
     {| RPCResponse.id := VStr "9"; RPCResponse.result := Some VUndefined;
        RPCResponse.error := None |}].
Proof.
  intros failing req.
  rewrite (onRequest_rejection_acknowledges_twice "Foo.Bar" failing req 0
             (VObj [("code", VNum 404)]) (fresh "s") eq_refl eq_refl).
  reflexivity.
Defined.

(** ** The method on the wire *)

Lemma append_nil (b : string) : EmptyString +:+ b = b.
Proof. reflexivity. Qed.

Lemma append_cons x (a b : string) : String x a +:+ b = String x (a +:+ b).
Proof. reflexivity. Qed.

Lemma append_assoc (a b c : string) : (a +:+ b) +:+ c = a +:+ (b +:+ c).
Proof.
  induction a as [|x a IH]; [done|]. by rewrite !append_cons, IH.
Qed.

Lemma wire_method address method x w :
  (RPCRequest.method ∘ fst) <$> requests_sent (events (request address method x w))
  = [address +:+ "." +:+ method].
Proof. by rewrite request_unfold. Qed.

(** X8: the address and the method are joined without escaping, so the
    envelope does not tell where the address ends: a call to the address
    [a.b] with method [c] is, on the wire, the call to the address [a]
    with method [b.c]. *)
Theorem request_encoding_collides a b c x w :
  request (a +:+ "." +:+ b) c x w = request a (b +:+ "." +:+ c) x w.
Proof.
  rewrite !request_unfold. unfold Spec.call.
  by rewrite append_assoc.
Qed.

Lemma join_dot_free_inj a1 a2 m1 m2 :
  dot_free a1 = true → dot_free a2 = true →
  a1 +:+ "." +:+ m1 = a2 +:+ "." +:+ m2 →
  a1 = a2 ∧ m1 = m2.
Proof.
  revert a2. induction a1 as [|c1 a1 IH]; intros [|c2 a2] H1 H2 Heq;
    rewrite ?append_nil, ?append_cons in Heq; simpl in H1, H2.
  - by inversion Heq.
  - inversion Heq; subst. by rewrite Ascii.eqb_refl in H2.
  - inversion Heq; subst. by rewrite Ascii.eqb_refl in H1.
  - inversion Heq; subst.
    apply andb_prop in H1 as [_ H1]. apply andb_prop in H2 as [_ H2].
    destruct (IH a2 H1 H2) as [-> ->]; done.
Qed.

(** X9: for addresses without a ".", as socket ids are, the envelope's
    method determines both the address and the method of the call. *)
Theorem request_encoding_injective a1 m1 x1 w1 a2 m2 x2 w2 :
  dot_free a1 = true → dot_free a2 = true →
  (RPCRequest.method ∘ fst) <$> requests_sent (events (request a1 m1 x1 w1))
  = (RPCRequest.method ∘ fst) <$> requests_sent (events (request a2 m2 x2 w2)) →
  a1 = a2 ∧ m1 = m2.
Proof.
  intros H1 H2. rewrite !wire_method. intros [= Heq].
  by apply join_dot_free_inj.
Qed.

Lemma request_encoding_injective_witness :
  "peerA" = "peerA" ∧ "Foo.Bar" = "Foo.Bar".
Proof.
  apply (request_encoding_injective "peerA" "Foo.Bar" VNull (fresh "s")
           "peerA" "Foo.Bar" (VNum 1)
           (world (request "peerB" "Foo.Baz" VNull (fresh "t"))));
    reflexivity.
Defined.

(** ** From the caller to the handler and back *)

Lemma deliver_nil w : world (deliver [] w) = w.
Proof. reflexivity. Qed.

Lemma take_pos_singleton {A} n (x : A) : (0 < n)%nat → take n [x] = [x].
Proof. by destruct n as [|n]; [lia|]; rewrite firstn_cons, take_nil. Qed.

(** X10: a call whose envelope reaches one handler of the callee, with its
    id and params unchanged and under the method the handler is registered
    for, and whose acknowledgements come back to the call's acknowledgement
    function (the first one only, or all of them), ends as the handler
    did: fulfilled with the handler's value, rejected with
    [{code: 500, message: reason}], or pending for ever if the handler's
    promise never settles.  Every reply carries the id of the call. *)
Theorem round_trip wA wB address method name x handler env a req cb n :
  requests_sent (events (request address method x wA)) = [(env, a)] →
  RPCRequest.id req = RPCRequest.id env →
  RPCRequest.params req = RPCRequest.params env →
  RPCRequest.method req = name →
  events (rpc_arrives req cb wB) = [] →
  (0 < n)%nat →
  let call := request address method x wA in
  let replies :=
    acknowledged cb
      (events (rpc_arrives req cb (world (onRequest name handler wB)))) in
  let final := deliver ((λ r, (a, r)) <$> take n replies) (world call) in
  promises (world final) !! value call = Some (relayed (run handler x))
  ∧ Forall (λ r, RPCResponse.id r = VStr (RPCRequest.id env)) replies.
Proof.
  intros Hsent Hid Hparams Hname Hquiet Hn call replies final.
  pose proof (request_outstanding address method x wA) as Hpend.
  fold call in Hpend.
  assert (a = AckSettle (value call)
          ∧ RPCRequest.params env = [x]) as [-> Hx].
  { subst call. rewrite request_unfold in Hsent |- *.
    unfold Spec.call, events in Hsent. simpl in Hsent. by inversion Hsent. }
  assert (index0 (RPCRequest.params req) = x) as Harg by (by rewrite Hparams, Hx).
  subst final replies.
  rewrite rpc_arrives_onRequest, events_run, Hquiet, app_nil_l.
  rewrite onRequest_listener_unfold, events_run.
  apply String.eqb_eq in Hname. rewrite Hname, Harg, <-Hid.
  destruct (run handler x) as [|v|err]; simpl.
  - rewrite take_nil. split; [done|constructor].
  - rewrite decide_True by done. rewrite take_pos_singleton by done.
    split; [|by repeat constructor].
    cbn [fmap list_fmap]. rewrite deliver_cons, world_run, deliver_nil.
    rewrite ack_arrives_unfold, world_run. by apply settle_pending.
  - rewrite !decide_True by done.
    split; [|by repeat constructor].
    set (r1 := {| RPCResponse.id := _; RPCResponse.result := None |}).
    set (r2 := {| RPCResponse.id := _; RPCResponse.result := Some _ |}).
    assert (promises (world (ack_arrives (AckSettle (value call)) r1 (world call)))
              !! value call
            = Some (Rejected (VObj [("code", VNum 500); ("message", err)])))
      as Hfirst.
    { rewrite ack_arrives_unfold, world_run. by apply settle_pending. }
    destruct n as [|[|n]]; [lia| |].
    + rewrite firstn_cons, take_0. cbn [fmap list_fmap].
      by rewrite deliver_cons, world_run, deliver_nil.
    + rewrite !firstn_cons, take_nil. cbn [fmap list_fmap].
      rewrite !deliver_cons, !world_run, deliver_nil.
      rewrite (ack_arrives_unfold _ r2), world_run.
      by apply settle_settled.
Qed.

Lemma round_trip_witness :
  let failing := {| tag := 1; run := λ _, Rejected (VStr "boom") |} in
  let call := request "peerB" "Foo.Bar" (VNum 5) (fresh "a") in
  let req := {| RPCRequest.id := "1"; RPCRequest.method := "Foo.Bar";
                RPCRequest.params := [VNum 5] |} in
  let replies :=
    acknowledged 0
      (events (rpc_arrives req 0 (world (onRequest "Foo.Bar" failing (fresh "b"))))) in
  promises (world (deliver ((λ r, (AckSettle 0%nat, r)) <$> take 2 replies)
                           (world call))) !! 0%nat
  = Some (Rejected (VObj [("code", VNum 500); ("message", VStr "boom")])).
Proof.
  intros failing call req replies.
  refine (proj1 (round_trip (fresh "a") (fresh "b") "peerB" "Foo.Bar" "Foo.Bar"
                   (VNum 5) failing
                   {| RPCRequest.id := "1"; RPCRequest.method := "peerB.Foo.Bar";
                      RPCRequest.params := [VNum 5] |}
                   (AckSettle 0%nat) req 0 2%nat _ _ _ _ _ _));
    try reflexivity.
  lia.
Defined.

(** ** Edge cases of a response *)

(** X11: the test on [response.error] is one of truthiness.  A response to
    an outstanding call whose [error] is [null], [undefined], [false], [0]
    or the empty string fulfils the promise with the response's [result],
    and with [undefined] when there is no [result] either. *)
Theorem falsy_error_fulfils (p : Promise) w id result e :
  promises w !! p = Some Pending →
  truthy e = false →
  promises (world (ack_arrives (AckSettle p)
                     {| RPCResponse.id := id; RPCResponse.result := result;
                        RPCResponse.error := Some e |} w)) !! p
  = Some (Fulfilled (prop result)).
Proof.
  intros Hp He. rewrite ack_arrives_unfold, world_run.
  unfold outcome. simpl. rewrite He. by apply settle_pending.
Qed.

Lemma falsy_error_fulfils_witness :
  let w := world (request "peerA" "Foo.Bar" VNull (fresh "s")) in
  promises (world (ack_arrives (AckSettle 0%nat)
                     {| RPCResponse.id := VStr "1"; RPCResponse.result := None;
                        RPCResponse.error := Some (VNum 0) |} w)) !! 0%nat
  = Some (Fulfilled VUndefined).
Proof.
  intros w.
  apply (falsy_error_fulfils 0%nat w (VStr "1") None (VNum 0)); reflexivity.
Defined.

(** X12: the acknowledgement function of a call never looks at the id of
    the response it is given: two responses that differ only in their id
    settle the call in the same way.  A response is matched to its call by
    the acknowledgement function it is passed to, not by its id. *)
Theorem response_id_is_ignored a r id' w :
  ack_arrives a {| RPCResponse.id := id';
                   RPCResponse.result := RPCResponse.result r;
                   RPCResponse.error := RPCResponse.error r |} w
  = ack_arrives a r w.
Proof. by destruct a, r. Qed.
